(** * Gantt data manager: graph store, schedule builder and pattern matcher

    A shallow embedding of [adjacencyList.ts], [renderMap.ts] and
    [modules/kmpSearch.ts], and the properties of the specification that
    are stated about them.

    Conventions of the embedding.
    - A JavaScript [Map<string, entryNode>] is a [gmap string entryNode];
      the entry objects are reached through their key only, so a mutation
      of an entry is an [alter] at its key.
    - A JavaScript [Set<string>] is the list of its elements in insertion
      order, without duplicates ([Set_add], [Set_delete], [Set_from]):
      the order is the one [forEach], [Array.from] and [reduce] see.
    - A [Date] object is a reference into a heap of time values
      (milliseconds since the epoch, an integer: invalid dates, whose time
      value is NaN, are outside the model).
    - A parameter with a default value is an [option]: [None] is the
      omitted ([undefined]) argument.  A value of type [T | null] is an
      [option T] as well, [None] being [null].
    - [duration] is an integer ([Z]). *)

From stdpp Require Import base list strings gmap relations sorting.
From Stdlib Require Import ZArith Lia.

Local Open Scope Z_scope.

(** ** Insertion-ordered sets of names *)

Module JsSet.

Definition Set_add (x : string) (s : list string) : list string :=
  if decide (x ∈ s) then s else s ++ [x].

Definition Set_delete (x : string) (s : list string) : list string :=
  filter (λ y, y ≠ x) s.

(** [new Set(array)] *)
Definition Set_from (l : list string) : list string :=
  foldl (λ s x, Set_add x s) [] l.

End JsSet.
Export JsSet.

(** ** The graph store ([adjacencyList.ts]) *)

Module AdjacencyList.

Inductive Color : Set :=
  | Color1 | Color2 | Color3 | Color4 | Color5
  | Color6 | Color7 | Color8 | Color9 | Color10.

Inductive GraphError : Set :=
  | RootChange | RootRemoval | EntryDuplicate | EmptyName | InvalidInput
  | ZeroDuration | NegativeDuration | MissingEntry | MissingParent
  | MissingChild | SelfReference | RootReference | GraphLoop
  | NodeLimitExceeded.

(** A reference to a [Date] object. *)
Abbreviation Date := nat (only parsing).

Record entryNode : Set := mkEntryNode {
  name : string;
  duration : Z;
  parents : option (list string);
  children : option (list string);
  color : Color;
  start : option Date }.

(** The fields of the class; [list_] is the field [list]. *)
Record t : Type := mkAdjacencyList {
  id : string;
  list_ : gmap string entryNode;
  defaultColor : Color;
  startDate : Date;
  rootName : string }.

Definition MAX_NODES : Z := 10000.

Definition with_list (g : t) (m : gmap string entryNode) : t :=
  mkAdjacencyList (id g) m (defaultColor g) (startDate g) (rootName g).

Definition with_parents (nd : entryNode) (ps : option (list string)) : entryNode :=
  mkEntryNode (name nd) (duration nd) ps (children nd) (color nd) (start nd).

Definition with_children (nd : entryNode) (cs : option (list string)) : entryNode :=
  mkEntryNode (name nd) (duration nd) (parents nd) cs (color nd) (start nd).

(** [this.list.get(k).parents = f(this.list.get(k).parents)], when the
    entry exists. *)
Definition alter_parents (f : option (list string) → option (list string))
    (k : string) (g : t) : t :=
  with_list g (alter (λ nd, with_parents nd (f (parents nd))) k (list_ g)).

Definition alter_children (f : option (list string) → option (list string))
    (k : string) (g : t) : t :=
  with_list g (alter (λ nd, with_children nd (f (children nd))) k (list_ g)).

(** [s?.delete(x)] *)
Definition opt_delete (x : string) (s : option (list string)) : option (list string) :=
  Set_delete x <$> s.

(** [if (s === null) s = new Set(); s.add(x)] *)
Definition add_or_new (x : string) (s : option (list string)) : option (list string) :=
  Some (Set_add x (default [] s)).

(** [if (s?.size === 0) s = null] *)
Definition null_if_empty (s : option (list string)) : option (list string) :=
  match s with
  | Some [] => None
  | _ => s
  end.

Definition getNodeCount (g : t) : nat := size (list_ g).
Definition getRemainingCapacity (g : t) : Z := MAX_NODES - Z.of_nat (size (list_ g)).
Definition isAtCapacity (g : t) : bool := bool_decide (MAX_NODES ≤ Z.of_nat (size (list_ g))).
Definition getRootName (g : t) : string := rootName g.
Definition getList (g : t) : gmap string entryNode := list_ g.

(** *** Root binding *)

Definition ensureRootBinding (nodeName : string) (g : t) : t :=
  if decide (nodeName = rootName g) then g
  else
    match list_ g !! nodeName, list_ g !! rootName g with
    | Some node, Some _ =>
        let g1 :=
          match parents node with
          | Some ps =>
              if decide (1 < length ps)%nat then
                alter_children (opt_delete nodeName) (rootName g)
                  (alter_parents (opt_delete (rootName g)) nodeName g)
              else g
          | None => g
          end in
        match list_ g1 !! nodeName ≫= parents with
        | Some [] =>
            alter_children (add_or_new nodeName) (rootName g)
              (alter_parents (λ s, Set_add (rootName g) <$> s) nodeName g1)
        | _ => g1
        end
    | _, _ => g
    end.

Definition bindChildNode (childNodeName nodeName : string) (g : t) : t :=
  match list_ g !! nodeName, list_ g !! childNodeName with
  | Some _, Some _ =>
      let g1 := alter_children (add_or_new childNodeName) nodeName g in
      let g2 := alter_parents (add_or_new nodeName) childNodeName g1 in
      ensureRootBinding childNodeName g2
  | _, _ => g
  end.

Definition unbindChildNode (childNodeName nodeName : string) (g : t) : t :=
  match list_ g !! nodeName, list_ g !! childNodeName with
  | Some _, Some _ =>
      let g1 := alter_children (opt_delete childNodeName) nodeName g in
      let g2 := alter_children null_if_empty nodeName g1 in
      let g3 := alter_parents (opt_delete nodeName) childNodeName g2 in
      if decide (nodeName ≠ rootName g) then ensureRootBinding childNodeName g3
      else g3
  | _, _ => g
  end.

(** *** Cycle detection *)

(** The [while] loop of [findLoop].  The head of [dfsStack] is the top of
    the JavaScript array (its last element).  [None]: the fuel ran out. *)
Fixpoint findLoop_loop (fuel : nat) (m : gmap string entryNode)
    (parentSet dfsStack visited : list string) : option bool :=
  match fuel with
  | O => None
  | S fuel' =>
      match dfsStack with
      | [] => Some false
      | current :: rest =>
          let currentChildren := m !! current ≫= children in
          if decide (current ∈ parentSet) then Some true
          else
            let visited' := Set_add current visited in
            let pushed := filter (λ child, child ∉ visited') (default [] currentChildren) in
            findLoop_loop fuel' m parentSet (reverse pushed ++ rest) visited'
      end
  end.

Definition children_total (m : gmap string entryNode) : nat :=
  sum_list ((λ kv, length (default [] (children kv.2))) <$> map_to_list m).

(** Every iteration pops one name, and a name is only pushed as a child
    of a node visited for the first time: the loop makes at most
    [length children + children_total] iterations ([findLoop_total]). *)
Definition findLoop_fuel (m : gmap string entryNode) (children : list string) : nat :=
  S (length children + children_total m).

Definition findLoop (parents children : option (list string)) (g : t) : option bool :=
  match parents, children with
  | Some ps, Some cs =>
      findLoop_loop (findLoop_fuel (list_ g) cs) (list_ g) (Set_from ps) (reverse cs) []
  | _, _ => Some false
  end.

(** *** Operations that may throw *)

Inductive outcome (A : Type) : Type :=
  | Ok (a : A)
  | Throw (e : GraphError)
  | OutOfFuel.
Arguments Ok {A} a.
Arguments Throw {A} e.
Arguments OutOfFuel {A}.

(** A method of the class: it returns or throws, and leaves a graph. *)
Definition M (A : Type) : Type := t → outcome A * t.

#[global] Instance M_ret : MRet M := λ A a g, (Ok a, g).
#[global] Instance M_bind : MBind M := λ A B k c g,
  match c g with
  | (Ok a, g') => k a g'
  | (Throw e, g') => (Throw e, g')
  | (OutOfFuel, g') => (OutOfFuel, g')
  end.
Definition throw {A} (e : GraphError) : M A := λ g, (Throw e, g).
Definition gets {A} (f : t → A) : M A := λ g, (Ok (f g), g).
Definition modify (f : t → t) : M unit := λ g, (Ok tt, f g).
Definition when (b : bool) (c : M unit) : M unit := if b then c else mret tt.

Fixpoint forEach {A} (l : list A) (f : A → M unit) : M unit :=
  match l with
  | [] => mret tt
  | x :: l' => f x ;; forEach l' f
  end.

Definition has (k : string) : M bool := gets (λ g, bool_decide (is_Some (list_ g !! k))).

Definition runCommonValidation (name : string) (duration : Z)
    (parents children : option (list string)) : M unit :=
  root ← gets rootName;
  when (bool_decide (String.length name = 0%nat)) (throw EmptyName) ;;
  when (bool_decide (duration = 0) && bool_decide (name ≠ root)) (throw ZeroDuration) ;;
  when (bool_decide (duration < 0)) (throw NegativeDuration) ;;
  forEach (default [] parents) (λ parent,
    b ← has parent;
    when (negb b) (throw MissingParent) ;;
    when (bool_decide (name = parent)) (throw SelfReference)) ;;
  forEach (default [] children) (λ child,
    b ← has child;
    when (negb b) (throw MissingChild) ;;
    when (bool_decide (name = child)) (throw SelfReference) ;;
    when (bool_decide (child = root)) (throw RootReference)) ;;
  loop ← gets (findLoop parents children);
  match loop with
  | Some true => throw GraphLoop
  | Some false => mret tt
  | None => λ g, (OutOfFuel, g)
  end.

Definition addNode (name : option string) (duration : option Z)
    (parents children : option (option (list string)))
    (color : option Color) (start : option (option Date))
    (validate : option bool) : M unit :=
  root ← gets rootName;
  dflt ← gets defaultColor;
  let name := default root name in
  let duration := default 0 duration in
  let parents := default None parents in
  let children := default None children in
  let color := default dflt color in
  let start := default None start in
  let validate := default true validate in
  count ← gets getNodeCount;
  when (bool_decide (MAX_NODES ≤ Z.of_nat count)) (throw NodeLimitExceeded) ;;
  b ← has name;
  when b (throw EntryDuplicate) ;;
  when validate (runCommonValidation name duration parents children) ;;
  let parents :=
    if bool_decide (parents = None) && bool_decide (name ≠ root)
    then Some [root] else parents in
  modify (λ g, with_list g
    (<[name := mkEntryNode name duration (Set_from <$> parents)
                 (Set_from <$> children) color start]> (list_ g))) ;;
  forEach (default [] parents) (λ parent, modify (bindChildNode name parent)) ;;
  forEach (default [] children) (λ child, modify (bindChildNode child name)).

Definition removeNode (name : string) (isUpdate : option bool) : M unit :=
  let isUpdate := default false isUpdate in
  root ← gets rootName;
  when (bool_decide (name = root)) (throw RootRemoval) ;;
  b ← has name;
  when (negb b) (throw MissingEntry) ;;
  node ← gets (λ g, list_ g !! name);
  match node with
  | None => throw MissingEntry
  | Some node =>
      let parents := default [] (AdjacencyList.parents node) in
      let children := default [] (AdjacencyList.children node) in
      forEach parents (λ parent, modify (unbindChildNode name parent)) ;;
      forEach children (λ child,
        modify (unbindChildNode child name) ;;
        when (negb isUpdate)
          (forEach parents (λ parent, modify (bindChildNode child parent)))) ;;
      modify (λ g, with_list g (delete name (list_ g))) ;;
      modify (alter_children (opt_delete name) root)
  end.

Definition updateNode (name : string) (newName : option string)
    (duration : option Z) (parents children : option (option (list string)))
    (color : option Color) (start : option (option Date)) : M unit :=
  node ← gets (λ g, list_ g !! name);
  root ← gets rootName;
  dflt ← gets defaultColor;
  let newName := default name newName in
  let duration := default (default 0 (AdjacencyList.duration <$> node)) duration in
  let parents :=
    default (Some (default [] (node ≫= AdjacencyList.parents))) parents in
  let children :=
    default (Some (default [] (node ≫= AdjacencyList.children))) children in
  let color := default dflt color in
  let start := default (node ≫= AdjacencyList.start) start in
  when (bool_decide (name = root)) (throw RootChange) ;;
  b ← has newName;
  when (b && bool_decide (newName ≠ name)) (throw EntryDuplicate) ;;
  b ← has name;
  when (negb b) (throw MissingEntry) ;;
  runCommonValidation name duration parents children ;;
  let parents := if bool_decide (parents = Some []) then None else parents in
  let children := if bool_decide (children = Some []) then None else children in
  removeNode name (Some true) ;;
  addNode (Some newName) (Some duration) (Some parents) (Some children)
    (Some color) (Some start) (Some false).


(** [generateSecureRootName()] ([modules/rootNameGen.ts]): a prefix and
    three strings made from the clock and the random generator. *)
Definition generateSecureRootName (timestamp processId hexString : string) : string :=
  "Δ" +:+ timestamp +:+ processId +:+ hexString.

(** [new AdjacencyList(id, initialStartDate)].  [root] is the constant
    [rootName] of [constants/index.ts]; [initialStartDate] is the date the
    caller passed or the fresh [new Date()]. *)
Definition new (root id : string) (initialStartDate : Date) : outcome unit * t :=
  addNode None None None None None None None
    (mkAdjacencyList id ∅ Color1 initialStartDate root).

(** *** Reachable graphs

    The calls of the interface [IAdjacencyList] that change the graph
    (its [addNode] has no [validate] parameter), and the graphs they
    lead to from a new one. *)

Inductive Call : Type :=
  | CallAddNode (name : option string) (duration : option Z)
      (parents children : option (option (list string)))
      (color : option Color) (start : option (option Date))
  | CallUpdateNode (name : string) (newName : option string) (duration : option Z)
      (parents children : option (option (list string)))
      (color : option Color) (start : option (option Date))
  | CallRemoveNode (name : string) (isUpdate : option bool).

Definition call (c : Call) : M unit :=
  match c with
  | CallAddNode name duration parents children color start =>
      addNode name duration parents children color start None
  | CallUpdateNode name newName duration parents children color start =>
      updateNode name newName duration parents children color start
  | CallRemoveNode name isUpdate => removeNode name isUpdate
  end.

(** The graph left by a sequence of calls, whether they return or throw. *)
Definition run_calls (calls : list Call) (g : t) : t :=
  foldl (λ g c, (call c g).2) g calls.

Definition reachable (g : t) : Prop :=
  ∃ timestamp processId hexString id startDate calls,
    g = run_calls calls
          (new (generateSecureRootName timestamp processId hexString) id startDate).2.

End AdjacencyList.

(** ** The schedule builder ([renderMap.ts]) *)

Module RenderMap.
Import AdjacencyList.

(** *** Date objects

    The heap gives the time value of every [Date] object allocated so far;
    a reference is an index into it.  The local time zone is taken to be
    UTC, so that local time and time value coincide. *)

Abbreviation DateHeap := (list Z) (only parsing).

Definition msPerDay : Z := 86400000.

Definition getTime (h : DateHeap) (d : Date) : Z := default 0 (h !! d).

(** [new Date(t)] *)
Definition new_Date (t : Z) (h : DateHeap) : Date * DateHeap :=
  (length h, h ++ [t]).

Definition setTime (d : Date) (t : Z) (h : DateHeap) : DateHeap := <[d := t]> h.

(** ECMAScript [Day], [TimeWithinDay], [MakeDate]. *)
Definition Day (t : Z) : Z := t `div` msPerDay.
Definition TimeWithinDay (t : Z) : Z := t `mod` msPerDay.
Definition MakeDate (day time : Z) : Z := day * msPerDay + time.

(** ECMAScript [DateFromTime]: the day of the month, 1 to 31, of a time
    value in the proleptic Gregorian calendar (computed from the number of
    days since 0000-03-01). *)
Definition DateFromTime (t : Z) : Z :=
  let z := Day t + 719468 in
  let doe := z `mod` 146097 in
  let yoe := (doe - doe `div` 1460 + doe `div` 36524 - doe `div` 146096) `div` 365 in
  let doy := doe - (365 * yoe + yoe `div` 4 - yoe `div` 100) in
  let mp := (5 * doy + 2) `div` 153 in
  doy - (153 * mp + 2) `div` 5 + 1.

Definition getDate (h : DateHeap) (d : Date) : Z := DateFromTime (getTime h d).

(** [d.setDate(date)]: the day of the month is replaced, the month and
    the time within the day are kept, and a day outside the month carries
    into the neighbouring months: [MakeDay(Year, Month, date)] is the day
    number of [d] moved by [date - DateFromTime]. *)
Definition setDate (d : Date) (date : Z) (h : DateHeap) : DateHeap :=
  let t := getTime h d in
  setTime d (MakeDate (Day t + (date - DateFromTime t)) (TimeWithinDay t)) h.

(** *** The render map *)

Record ganttElement : Set := mkGanttElement {
  ge_name : string;
  ge_start : Date;
  ge_end : Date;
  ge_parents : option (list string);
  ge_children : option (list string);
  ge_color : Color;
  ge_overlappingStart : option Date }.

Definition createGanttElement (name : string) (start end_ : Date)
    (parents children : option (list string)) (color : Color)
    (overlappingStart : option Date) : ganttElement :=
  mkGanttElement name start end_ parents children color overlappingStart.

(** The result [Map<string, ganttElement>], in insertion order. *)
Fixpoint Map_get (k : string) (m : list (string * ganttElement)) : option ganttElement :=
  match m with
  | [] => None
  | (k', v) :: m' => if decide (k' = k) then Some v else Map_get k m'
  end.

Fixpoint Map_set (k : string) (v : ganttElement) (m : list (string * ganttElement))
    : list (string * ganttElement) :=
  match m with
  | [] => [(k, v)]
  | (k', v') :: m' => if decide (k' = k) then (k, v) :: m' else (k', v') :: Map_set k v m'
  end.

(** *** Ordering of the children made ready by one pop *)

Definition sortGanttElements (h : DateHeap) (a b : ganttElement) : Z :=
  if bool_decide (ge_children a ≠ None) && bool_decide (ge_children b = None) then 1
  else if bool_decide (ge_children b ≠ None) && bool_decide (ge_children a = None) then -1
  else if bool_decide (ge_end a = ge_end b) then 0
  else if bool_decide (getDate h (ge_end a) - getDate h (ge_end b) > 0) then 1
  else -1.

(** [Array.prototype.sort(comparefn)], as the insertion sort that engines
    run on short arrays: every element in turn moves left past the
    elements [y] before it with [comparefn(y, x) > 0].  [sorted_rev] is
    the sorted prefix, last element first. *)
Fixpoint sort_insert {A} (comparefn : A → A → Z) (x : A) (sorted_rev : list A) : list A :=
  match sorted_rev with
  | [] => [x]
  | y :: r => if bool_decide (comparefn y x > 0) then y :: sort_insert comparefn x r
              else x :: y :: r
  end.

Definition Array_sort {A} (comparefn : A → A → Z) (l : list A) : list A :=
  reverse (foldl (λ acc x, sort_insert comparefn x acc) [] l).

(** *** The traversal *)

(** The objects the traversal works on: the caller's [adjList] and the
    heap of dates (both shared with the caller), and the local
    [dfsStack] (head: top of the stack), [renderMap] and [pendingMap]. *)
Record state : Type := mkState {
  adjList : gmap string entryNode;
  heap : DateHeap;
  dfsStack : list string;
  renderMap : list (string * ganttElement);
  pendingMap : gmap string Z }.

(** The accumulator of the [reduce] over the parents of a ready child. *)
Definition latest_parent_end (h : DateHeap) (projectStart : Date)
    (renderMap : list (string * ganttElement)) (max : Z) (current : string) : Z :=
  match Map_get current renderMap with
  | None => getTime h projectStart
  | Some parentNode => Z.max max (getTime h (ge_end parentNode))
  end.

(** The start date computed for a ready child, before the date the user
    asked for is looked at. *)
Definition computed_start (rootName : string) (projectStart : Date)
    (currentNode : entryNode) (childNodeParents : list string)
    (renderMap : list (string * ganttElement)) (h : DateHeap) : Z :=
  if bool_decide (name currentNode = rootName) then getTime h projectStart
  else foldl (latest_parent_end h projectStart renderMap) 0 childNodeParents.

(** The dates and the element of a ready child: two new [Date] objects,
    [start] and [end]. *)
Definition make_element (rootName : string) (projectStart : Date)
    (currentNode childNode : entryNode)
    (renderMap : list (string * ganttElement)) (h : DateHeap)
    : ganttElement * DateHeap :=
  let childNodeParents := default [] (parents childNode) in
  let '(start, h1) :=
    new_Date (computed_start rootName projectStart currentNode childNodeParents
                renderMap h) h in
  let isStartOverlapping :=
    match AdjacencyList.start childNode with
    | Some user => negb (bool_decide (getTime h1 user >= getTime h1 start))
    | None => false
    end in
  let h2 :=
    match AdjacencyList.start childNode with
    | Some user =>
        if bool_decide (getTime h1 user >= getTime h1 start)
        then setTime start (getTime h1 user) h1 else h1
    | None => h1
    end in
  let '(end_, h3) := new_Date (getTime h2 start) h2 in
  let h4 := setDate end_ (getDate h3 start + duration childNode) h3 in
  (createGanttElement (name childNode) start end_ (parents childNode)
     (children childNode) (color childNode)
     (if isStartOverlapping then AdjacencyList.start childNode else None), h4).

(** The body of [currentNode.children.forEach]: [elems] is
    [currentProcessedElements]. *)
Definition visit_child (rootName : string) (projectStart : Date)
    (currentNode : entryNode) (acc : state * list ganttElement) (child : string)
    : state * list ganttElement :=
  let st := acc.1 in
  let elems := acc.2 in
  match adjList st !! child with
  | None => acc
  | Some childNode =>
      let childNodeParents := default [] (parents childNode) in
      if bool_decide (length childNodeParents = 1%nat)
         || bool_decide (pendingMap st !! name childNode = Some 1)
      then
        let made := make_element rootName projectStart currentNode childNode
                      (renderMap st) (heap st) in
        (mkState (adjList st) made.2 (dfsStack st) (renderMap st) (pendingMap st),
         elems ++ [made.1])
      else
        let count :=
          match pendingMap st !! name childNode with
          | Some currentCount => currentCount - 1
          | None => Z.of_nat (length childNodeParents) - 1
          end in
        (mkState (adjList st) (heap st) (dfsStack st) (renderMap st)
           (<[name childNode := count]> (pendingMap st)), elems)
  end.

(** [currentProcessedElements.forEach]: push the elements that have
    children, record every element. *)
Definition record_element (st : state) (element : ganttElement) : state :=
  mkState (adjList st) (heap st)
    (match ge_children element with
     | Some (_ :: _) => ge_name element :: dfsStack st
     | _ => dfsStack st
     end)
    (Map_set (ge_name element) element (renderMap st)) (pendingMap st).

(** The elements one pop makes ready, in the order they are recorded. *)
Definition ready_children (rootName : string) (projectStart : Date)
    (currentNodeName : string) (st : state) : state * list ganttElement :=
  let currentNode :=
    if bool_decide (currentNodeName = "") then None else adjList st !! currentNodeName in
  match currentNode with
  | Some currentNode =>
      let visited :=
        foldl (visit_child rootName projectStart currentNode) (st, [])
          (default [] (children currentNode)) in
      (visited.1, Array_sort (sortGanttElements (heap visited.1)) visited.2)
  | None => (st, [])
  end.

(** One iteration of the [while] loop, the stack being [currentNodeName :: rest]. *)
Definition step (rootName : string) (projectStart : Date)
    (currentNodeName : string) (rest : list string) (st : state) : state :=
  let popped := mkState (adjList st) (heap st) rest (renderMap st) (pendingMap st) in
  let ready := ready_children rootName projectStart currentNodeName popped in
  foldl record_element ready.1 ready.2.

Fixpoint loop (fuel : nat) (rootName : string) (projectStart : Date) (st : state)
    : option state :=
  match fuel with
  | O => None
  | S fuel' =>
      match dfsStack st with
      | [] => Some st
      | currentNodeName :: rest =>
          loop fuel' rootName projectStart (step rootName projectStart currentNodeName rest st)
      end
  end.

(** [createRenderMap(adjList, rootName, projectStart, initialNodeName)]:
    the result map together with the final contents of [adjList] and of
    the heap of dates; [None] when the loop does not end within
    [size adjList + 2] iterations. *)
Definition createRenderMap (adjList : gmap string entryNode) (rootName : string)
    (projectStart : Date) (initialNodeName : option string) (h : DateHeap)
    : option (list (string * ganttElement) * gmap string entryNode * DateHeap) :=
  let initialNodeName := default rootName initialNodeName in
  st ← loop (S (S (size adjList))) rootName projectStart
         (mkState adjList h [initialNodeName] [] ∅);
  Some (renderMap st, RenderMap.adjList st, heap st).

End RenderMap.

(** ** The pattern matcher ([modules/kmpSearch.ts]) *)

Module KmpSearch.

(** A JavaScript string is the list of its UTF-16 code units; [s.length]
    is [length s] and [s[i]] is [s !! i] ([None] for [undefined]). *)
Abbreviation jsstring := (list N) (only parsing).

(** The code units of an ASCII literal. *)
Definition of_ascii (s : string) : jsstring :=
  (λ c, N.of_nat (Ascii.nat_of_ascii c)) <$> String.list_ascii_of_string s.

(** [String.prototype.toLowerCase] on the code units U+0000 to U+00FF and
    U+0130: the Unicode default case conversion maps A to Z and the
    Latin-1 capitals to the letter 32 places further, and U+0130 (capital
    I with dot above) to the two code units U+0069 U+0307 (SpecialCasing).
    Code units outside this range are not described by this table. *)
Definition lower_unit (c : N) : list N :=
  if bool_decide (65 ≤ c ≤ 90)%N then [c + 32]%N
  else if bool_decide (192 ≤ c ≤ 222 ∧ c ≠ 215)%N then [c + 32]%N
  else if bool_decide (c = 304)%N then [105; 775]%N
  else [c].

Definition toLowerCase_latin (s : jsstring) : jsstring := s ≫= lower_unit.

Section Kmp.

(** [String.prototype.toLowerCase], a built-in. *)
Variable toLowerCase : jsstring → jsstring.

(** The [while] loop of [buildLspArray], which falls back along the
    table built so far. *)
Fixpoint lsp_fallback (fuel : nat) (pattern : jsstring) (lsp : list nat)
    (i len : nat) : option nat :=
  match fuel with
  | O => None
  | S fuel' =>
      if bool_decide (0 < len)%nat && bool_decide (pattern !! i ≠ pattern !! len)
      then lsp_fallback fuel' pattern lsp i (default 0%nat (lsp !! (len - 1)%nat))
      else Some len
  end.

(** The [for] loop of [buildLspArray], [todo] iterations from index [i];
    [lsp] holds the entries [0 .. i - 1]. *)
Fixpoint lsp_loop (todo : nat) (pattern : jsstring) (lsp : list nat)
    (i len : nat) : option (list nat) :=
  match todo with
  | O => Some lsp
  | S todo' =>
      len ← lsp_fallback (S len) pattern lsp i len;
      let len := if bool_decide (pattern !! i = pattern !! len) then S len else len in
      lsp_loop todo' pattern (lsp ++ [len]) (S i) len
  end.

Definition buildLspArray (pattern : jsstring) : option (list nat) :=
  lsp_loop (length pattern - 1) pattern [0%nat] 1 0.

(** The [while] loop of [getMaxLsp]. *)
Fixpoint search_loop (fuel : nat) (lowerPattern lowerText : jsstring)
    (lsp : list nat) (textIndex patternIndex maxLsp : nat) : option nat :=
  match fuel with
  | O => None
  | S fuel' =>
      if bool_decide (textIndex < length lowerText)%nat then
        if bool_decide (lowerText !! textIndex = lowerPattern !! patternIndex) then
          let textIndex := S textIndex in
          let patternIndex := S patternIndex in
          let maxLsp := Nat.max maxLsp patternIndex in
          if bool_decide (patternIndex = length lowerPattern) then Some (length lowerPattern)
          else search_loop fuel' lowerPattern lowerText lsp textIndex patternIndex maxLsp
        else if bool_decide (patternIndex ≠ 0%nat) then
          search_loop fuel' lowerPattern lowerText lsp textIndex
            (default 0%nat (lsp !! (patternIndex - 1)%nat)) maxLsp
        else
          search_loop fuel' lowerPattern lowerText lsp (S textIndex) patternIndex maxLsp
      else Some maxLsp
  end.

(** [None]: one of the loops ran out of fuel ([getMaxLsp_total]: it never
    does). *)
Definition getMaxLsp (pattern text : jsstring) : option nat :=
  if bool_decide (length pattern = 0%nat) || bool_decide (length text = 0%nat) then Some 0%nat
  else if bool_decide (length text < length pattern)%nat then Some 0%nat
  else
    let lowerPattern := toLowerCase pattern in
    let lowerText := toLowerCase text in
    lsp ← buildLspArray lowerPattern;
    search_loop (S (2 * length lowerText)) lowerPattern lowerText lsp 0 0 0.

(** The test of [getRelevantTaskNameList] ([index.ts]) on one task name. *)
Definition relevant (pattern taskName : jsstring) : bool :=
  bool_decide (getMaxLsp pattern taskName = Some (length pattern)).

End Kmp.

End KmpSearch.

(** * Properties of the graph store *)

Module GraphFacts.
Import AdjacencyList.

(** ** Methods that only read, methods that never throw *)

Definition readonly {A} (c : M A) : Prop := ∀ g, (c g).2 = g.
Definition no_throw {A} (c : M A) : Prop := ∀ g, ∃ a, (c g).1 = Ok a.

Lemma readonly_ret {A} (a : A) : readonly (mret a).
Proof. done. Qed.
Lemma readonly_throw {A} e : readonly (@throw A e).
Proof. done. Qed.
Lemma readonly_gets {A} (f : t → A) : readonly (gets f).
Proof. done. Qed.
Lemma readonly_bind {A B} (c : M A) (k : A → M B) :
  readonly c → (∀ a, readonly (k a)) → readonly (c ≫= k).
Proof.
  intros Hc Hk g. unfold mbind, M_bind. specialize (Hc g).
  destruct (c g) as [[a| |] g']; simpl in *; subst; try done. apply Hk.
Qed.
Lemma readonly_when b c : readonly c → readonly (when b c).
Proof. destruct b; done. Qed.
Lemma readonly_forEach {A} (l : list A) f : (∀ x, readonly (f x)) → readonly (forEach l f).
Proof.
  intros Hf. induction l as [|x l IH]; simpl; [done|].
  apply readonly_bind; auto.
Qed.
Lemma readonly_has k : readonly (has k).
Proof. done. Qed.

Create HintDb readonly.
#[export] Hint Resolve readonly_ret readonly_throw readonly_gets readonly_when
  readonly_forEach readonly_has : readonly.

Lemma readonly_runCommonValidation n d ps cs : readonly (runCommonValidation n d ps cs).
Proof.
  unfold runCommonValidation.
  repeat (first [apply readonly_bind; [|intros ?] | apply readonly_forEach; intros ?
                | solve [auto with readonly]]).
  match goal with |- readonly (match ?x with _ => _ end) => destruct x as [[|]|] end; done.
Qed.

Lemma no_throw_modify f : no_throw (modify f).
Proof. intros g. by exists tt. Qed.
Lemma no_throw_bind {A B} (c : M A) (k : A → M B) :
  no_throw c → (∀ a, no_throw (k a)) → no_throw (c ≫= k).
Proof.
  intros Hc Hk g. unfold mbind, M_bind. destruct (Hc g) as [a Ha].
  destruct (c g) as [[a'| |] g']; simpl in *; try done. apply Hk.
Qed.
Lemma no_throw_forEach {A} (l : list A) f : (∀ x, no_throw (f x)) → no_throw (forEach l f).
Proof.
  intros Hf. induction l as [|x l IH]; simpl; [by exists tt|].
  apply no_throw_bind; auto.
Qed.

Lemma bind_failed {A B} (c : M A) (k : A → M B) g o g' :
  readonly c → (∀ a, no_throw (k a)) → (c ≫= k) g = (o, g') → (∀ b, o ≠ Ok b) → g' = g.
Proof.
  intros Hc Hk Heq Ho. unfold mbind, M_bind in Heq. specialize (Hc g).
  destruct (c g) as [[a| |] g1]; simpl in *; subst; try congruence.
  destruct (Hk a g) as [b Hb]. rewrite Heq in Hb. simpl in Hb. by destruct (Ho b).
Qed.


Lemma run_readonly {A} (c : M A) g : readonly c → c g = ((c g).1, g).
Proof. intros H. specialize (H g). destruct (c g); simpl in *; by subst. Qed.

Lemma bind_gets {A B} (f : t → A) (k : A → M B) g : (gets f ≫= k) g = k (f g) g.
Proof. done. Qed.

Lemma bind_run_readonly {A B} (c : M A) (k : A → M B) g :
  readonly c →
  (c ≫= k) g = match (c g).1 with
               | Ok a => k a g
               | Throw e => (Throw e, g)
               | OutOfFuel => (OutOfFuel, g)
               end.
Proof.
  intros H. unfold mbind, M_bind. rewrite (run_readonly c g H). simpl.
  by destruct (c g).1.
Qed.

Lemma bind_ok {A B} (c : M A) (k : A → M B) g a g' :
  c g = (Ok a, g') → (c ≫= k) g = k a g'.
Proof. intros H. unfold mbind, M_bind. by rewrite H. Qed.

Lemma forEach_modify {A} (l : list A) (f : A → t → t) g :
  forEach l (λ x, modify (f x)) g = (Ok tt, foldl (λ g x, f x g) g l).
Proof.
  revert g. induction l as [|x l IH]; intros g; simpl; [done|].
  unfold mbind, M_bind. simpl. apply IH.
Qed.

(** The name and the parent list [addNode] works with once the defaults
    are resolved. *)
Definition addNode_parents (root name : string) (parents : option (list string))
    : option (list string) :=
  if bool_decide (parents = None) && bool_decide (name ≠ root) then Some [root] else parents.

(** The checks of [addNode], which read the graph only. *)
Definition addNode_check (name : string) (duration : Z)
    (parents children : option (list string)) (validate : bool) : M unit :=
  count ← gets getNodeCount;
  when (bool_decide (MAX_NODES ≤ Z.of_nat count)) (throw NodeLimitExceeded) ;;
  b ← has name;
  when b (throw EntryDuplicate) ;;
  when validate (runCommonValidation name duration parents children).

(** The mutations of [addNode], which never throw. *)
Definition addNode_commit (name : string) (duration : Z)
    (parents children : option (list string)) (color : Color) (start : option Date)
    (g : t) : t :=
  let parents := addNode_parents (rootName g) name parents in
  let g1 := with_list g
    (<[name := mkEntryNode name duration (Set_from <$> parents)
                 (Set_from <$> children) color start]> (list_ g)) in
  let g2 := foldl (λ g parent, bindChildNode name parent g) g1 (default [] parents) in
  foldl (λ g child, bindChildNode child name g) g2 (default [] children).

Lemma readonly_addNode_check n d ps cs v : readonly (addNode_check n d ps cs v).
Proof.
  unfold addNode_check.
  repeat (first [apply readonly_bind; [|intros ?] | solve [auto with readonly]]).
  apply readonly_when, readonly_runCommonValidation.
Qed.

Lemma rootName_bindChildNode c n g : rootName (bindChildNode c n g) = rootName g.
Proof.
  unfold bindChildNode, ensureRootBinding.
  repeat (case_match; simpl; try done).
Qed.

Lemma addNode_unfold name duration parents children color start validate g :
  addNode name duration parents children color start validate g =
    let name' := default (rootName g) name in
    match (addNode_check name' (default 0 duration) (default None parents)
             (default None children) (default true validate) g).1 with
    | Ok _ => (Ok tt, addNode_commit name' (default 0 duration) (default None parents)
                        (default None children) (default (defaultColor g) color)
                        (default None start) g)
    | Throw e => (Throw e, g)
    | OutOfFuel => (OutOfFuel, g)
    end.
Proof.
  unfold addNode, addNode_check, addNode_commit, addNode_parents.
  rewrite !bind_gets. simpl.
  rewrite !(bind_run_readonly (when _ _)) by auto with readonly. simpl.
  case_bool_decide; simpl; [done|].
  unfold has. rewrite !bind_gets.
  rewrite !(bind_run_readonly (when _ _))
    by (auto using readonly_runCommonValidation with readonly).
  case_bool_decide; simpl; [done|].
  destruct (when (default true validate) _ g).1 as [[]| |]; simpl; try done.
  unfold mbind, M_bind. simpl.
  rewrite forEach_modify. rewrite forEach_modify. done.
Qed.

Theorem addNode_atomic name duration parents children color start validate g e g' :
  default true validate = true →
  addNode name duration parents children color start validate g = (Throw e, g') →
  g' = g.
Proof.
  intros _ H. rewrite addNode_unfold in H. simpl in H.
  destruct (addNode_check _ _ _ _ _ g).1; congruence.
Qed.

Lemma forEach_ext {A} (l : list A) (f f' : A → M unit) g :
  (∀ x g, f x g = f' x g) → forEach l f g = forEach l f' g.
Proof.
  intros H. revert g. induction l as [|x l IH]; intros g; simpl; [done|].
  unfold mbind, M_bind. rewrite H. destruct (f' x g) as [[[]| |] ?]; auto.
Qed.

(** What [removeNode] does to the children of the removed node. *)
Definition relink_child (name : string) (isUpdate : bool) (parents : list string)
    (g : t) (child : string) : t :=
  let g' := unbindChildNode child name g in
  if isUpdate then g' else foldl (λ g parent, bindChildNode child parent g) g' parents.

(** The mutations of [removeNode], [node] being the removed entry. *)
Definition removeNode_commit (name : string) (isUpdate : bool) (node : entryNode)
    (g : t) : t :=
  let parents := default [] (parents node) in
  let children := default [] (children node) in
  let g1 := foldl (λ g parent, unbindChildNode name parent g) g parents in
  let g2 := foldl (relink_child name isUpdate parents) g1 children in
  alter_children (opt_delete name) (rootName g)
    (with_list g2 (delete name (list_ g2))).

Lemma removeNode_unfold name isUpdate g :
  removeNode name isUpdate g =
    if decide (name = rootName g) then (Throw RootRemoval, g)
    else match list_ g !! name with
         | None => (Throw MissingEntry, g)
         | Some node => (Ok tt, removeNode_commit name (default false isUpdate) node g)
         end.
Proof.
  unfold removeNode, removeNode_commit, has. rewrite !bind_gets.
  rewrite !(bind_run_readonly (when _ _)) by auto with readonly.
  case_bool_decide; simpl; case_decide; try done.
  rewrite !bind_gets.
  rewrite !(bind_run_readonly (when _ _)) by auto with readonly.
  rewrite bind_gets.
  destruct (list_ g !! name) as [node|] eqn:E; simpl; [|done].
  erewrite bind_ok by apply forEach_modify.
  erewrite bind_ok.
  2: { rewrite (forEach_ext _ _
         (λ child, modify (λ g, relink_child name (default false isUpdate)
                             (default [] (parents node)) g child))).
       - apply forEach_modify.
       - intros x g0. unfold relink_child, mbind, M_bind. simpl.
         destruct (default false isUpdate); simpl; [done|]. by rewrite forEach_modify. }
  done.
Qed.

Lemma updateNode_unfold name newName duration parents children color start g :
  updateNode name newName duration parents children color start g =
    let node := list_ g !! name in
    let newName' := default name newName in
    let duration' := default (default 0 (AdjacencyList.duration <$> node)) duration in
    let parents' := default (Some (default [] (node ≫= AdjacencyList.parents))) parents in
    let children' := default (Some (default [] (node ≫= AdjacencyList.children))) children in
    let color' := default (defaultColor g) color in
    let start' := default (node ≫= AdjacencyList.start) start in
    if decide (name = rootName g) then (Throw RootChange, g)
    else if decide (is_Some (list_ g !! newName') ∧ newName' ≠ name)
    then (Throw EntryDuplicate, g)
    else match node with
         | None => (Throw MissingEntry, g)
         | Some nd =>
             match (runCommonValidation name duration' parents' children' g).1 with
             | Ok _ =>
                 addNode (Some newName') (Some duration')
                   (Some (if bool_decide (parents' = Some []) then None else parents'))
                   (Some (if bool_decide (children' = Some []) then None else children'))
                   (Some color') (Some start') (Some false)
                   (removeNode_commit name true nd g)
             | Throw e => (Throw e, g)
             | OutOfFuel => (OutOfFuel, g)
             end
         end.
Proof.
  unfold updateNode, has. rewrite !bind_gets.
  rewrite !(bind_run_readonly (when _ _)) by auto with readonly.
  simpl. case_bool_decide; case_decide; simpl; try done.
  rewrite !bind_gets.
  rewrite !(bind_run_readonly (when _ _)) by auto with readonly.
  case_decide as Hd.
  { destruct Hd as [Hs Hne]. rewrite !bool_decide_eq_true_2 by done. done. }
  assert (bool_decide (is_Some (list_ g !! default name newName))
          && bool_decide (default name newName ≠ name) = false) as ->.
  { apply andb_false_iff. rewrite !bool_decide_eq_false.
    destruct (decide (is_Some (list_ g !! default name newName))); [right|left]; tauto. }
  simpl. rewrite !bind_gets.
  rewrite !(bind_run_readonly (when _ _)) by auto with readonly.
  destruct (list_ g !! name) as [nd|] eqn:E; simpl; [|done].
  rewrite (bind_run_readonly (runCommonValidation _ _ _ _)) by apply readonly_runCommonValidation.
  destruct (runCommonValidation _ _ _ _ g).1 as [[]| |]; try done.
  unfold mbind, M_bind. rewrite removeNode_unfold.
  rewrite decide_False by done. rewrite E. done.
Qed.

(** ** Primitive mutations *)

Inductive setop : (option (list string) → option (list string)) → Prop :=
  | setop_delete x : setop (opt_delete x)
  | setop_add x : setop (add_or_new x)
  | setop_null : setop null_if_empty
  | setop_add_some x : setop (fmap (Set_add x)).

(** A property kept by the two ways an entry is mutated is kept by the
    three edge primitives. *)
Section prim_ind.
Variable P : t → Prop.
Hypothesis Hparents : ∀ f k g, setop f → P g → P (alter_parents f k g).
Hypothesis Hchildren : ∀ f k g, setop f → P g → P (alter_children f k g).

Lemma prim_ensureRootBinding c g : P g → P (ensureRootBinding c g).
Proof using Hparents Hchildren.
  intros HP. unfold ensureRootBinding.
  repeat (case_match; try done);
    repeat first [apply Hparents | apply Hchildren | constructor | done].
Qed.

Lemma prim_bindChildNode c n g : P g → P (bindChildNode c n g).
Proof using Hparents Hchildren.
  intros HP. unfold bindChildNode. repeat (case_match; try done).
  apply prim_ensureRootBinding.
  repeat first [apply Hparents | apply Hchildren | constructor | done].
Qed.

Lemma prim_unbindChildNode c n g : P g → P (unbindChildNode c n g).
Proof using Hparents Hchildren.
  intros HP. unfold unbindChildNode. repeat (case_match; try done);
  try apply prim_ensureRootBinding;
  repeat first [apply Hparents | apply Hchildren | constructor | done].
Qed.

Lemma prim_foldl {A} (f : A → t → t) (l : list A) g :
  (∀ x g, P g → P (f x g)) → P g → P (foldl (λ g x, f x g) g l).
Proof.
  intros Hf. revert g. induction l as [|x l IH]; simpl; auto.
Qed.

Lemma prim_relink_child name isUpdate ps g c :
  P g → P (relink_child name isUpdate ps g c).
Proof using Hparents Hchildren.
  intros HP. unfold relink_child. destruct isUpdate.
  - by apply prim_unbindChildNode.
  - apply (prim_foldl (λ p g, bindChildNode c p g)).
    + intros. by apply prim_bindChildNode.
    + by apply prim_unbindChildNode.
Qed.
End prim_ind.

(** The fields of the graph other than the node collection, and the keys
    of the collection, are left alone by the primitives. *)
Definition same_frame (g0 g : t) : Prop :=
  rootName g = rootName g0 ∧ defaultColor g = defaultColor g0 ∧
  startDate g = startDate g0 ∧ id g = id g0 ∧ dom (list_ g) = dom (list_ g0).

Lemma same_frame_refl g : same_frame g g.
Proof. done. Qed.

Lemma same_frame_alter_parents g0 f k g :
  same_frame g0 g → same_frame g0 (alter_parents f k g).
Proof. unfold same_frame. simpl. intros (?&?&?&?&?). by rewrite dom_alter_L. Qed.

Lemma same_frame_alter_children g0 f k g :
  same_frame g0 g → same_frame g0 (alter_children f k g).
Proof. unfold same_frame. simpl. intros (?&?&?&?&?). by rewrite dom_alter_L. Qed.

Lemma same_frame_bindChildNode g0 c n g :
  same_frame g0 g → same_frame g0 (bindChildNode c n g).
Proof.
  apply prim_bindChildNode; intros; auto using same_frame_alter_parents, same_frame_alter_children.
Qed.

Lemma same_frame_unbindChildNode g0 c n g :
  same_frame g0 g → same_frame g0 (unbindChildNode c n g).
Proof.
  apply prim_unbindChildNode; intros; auto using same_frame_alter_parents, same_frame_alter_children.
Qed.

Lemma dom_addNode_commit name d ps cs col st g :
  dom (list_ (addNode_commit name d ps cs col st g)) = {[name]} ∪ dom (list_ g).
Proof.
  unfold addNode_commit.
  set (g1 := with_list g _).
  assert (same_frame g1 (foldl (λ g child, bindChildNode child name g)
    (foldl (λ g parent, bindChildNode name parent g) g1
       (default [] (addNode_parents (rootName g) name ps))) (default [] cs))) as H.
  { apply (prim_foldl (same_frame g1) (λ c g, bindChildNode c name g)).
    { intros. by apply same_frame_bindChildNode. }
    apply (prim_foldl (same_frame g1) (λ p g, bindChildNode name p g)).
    { intros. by apply same_frame_bindChildNode. }
    done. }
  destruct H as (_&_&_&_&->). subst g1. simpl. by rewrite dom_insert_L.
Qed.

Lemma dom_removeNode_commit name isUpdate node g :
  dom (list_ (removeNode_commit name isUpdate node g)) = dom (list_ g) ∖ {[name]}.
Proof.
  unfold removeNode_commit. simpl. rewrite dom_alter_L, dom_delete_L.
  f_equal.
  set (g1 := foldl _ g _).
  assert (same_frame g g1) as H1.
  { apply (prim_foldl (same_frame g) (λ p g, unbindChildNode name p g)); [|done].
    intros. by apply same_frame_unbindChildNode. }
  assert (same_frame g (foldl (relink_child name isUpdate (default [] (parents node))) g1
            (default [] (children node)))) as H2.
  { apply (prim_foldl (same_frame g) (λ c g, relink_child name isUpdate _ g c)); [|done].
    intros. apply prim_relink_child; auto using same_frame_alter_parents, same_frame_alter_children. }
  by destruct H2 as (_&_&_&_&->).
Qed.

Lemma addNode_check_ok name d ps cs v g :
  (addNode_check name d ps cs v g).1 = Ok tt →
  Z.of_nat (size (list_ g)) < MAX_NODES ∧ list_ g !! name = None.
Proof.
  unfold addNode_check, has. rewrite !bind_gets.
  rewrite !(bind_run_readonly (when _ _)) by auto with readonly.
  unfold getNodeCount. case_bool_decide; simpl; [done|].
  rewrite !bind_gets.
  rewrite !(bind_run_readonly (when _ _)) by auto with readonly.
  case_bool_decide as Hs; simpl; [done|]. intros _. split; [lia|].
  destruct (list_ g !! name); [|done]. destruct Hs. eauto.
Qed.

Lemma size_addNode name duration parents children color start validate g :
  Z.of_nat (size (list_ g)) ≤ MAX_NODES →
  Z.of_nat (size (list_ (addNode name duration parents children color start validate g).2))
    ≤ MAX_NODES.
Proof.
  intros Hle. rewrite addNode_unfold. simpl.
  destruct (addNode_check _ _ _ _ _ g).1 as [[]| |] eqn:E; simpl; try done.
  apply addNode_check_ok in E as [Hlt Hnone].
  rewrite <-!size_dom, dom_addNode_commit, size_union, size_singleton, size_dom.
  - lia.
  - apply not_elem_of_dom in Hnone. set_solver.
Qed.

Lemma size_removeNode_commit name isUpdate node g :
  (size (list_ (removeNode_commit name isUpdate node g)) ≤ size (list_ g))%nat.
Proof.
  rewrite <-!size_dom, dom_removeNode_commit. apply subseteq_size. set_solver.
Qed.

(** ** Reachable graphs *)

Lemma generateSecureRootName_nonempty ts pid hex :
  generateSecureRootName ts pid hex ≠ "".
Proof. done. Qed.

Lemma new_unfold root i sd :
  root ≠ "" →
  new root i sd =
    (Ok tt, mkAdjacencyList i {[root := mkEntryNode root 0 None None Color1 None]}
              Color1 sd root).
Proof.
  intros Hne. unfold new. rewrite addNode_unfold. cbv zeta.
  set (g0 := mkAdjacencyList i ∅ Color1 sd root).
  assert ((addNode_check root 0 None None true g0).1 = Ok tt) as Hc.
  { unfold addNode_check, runCommonValidation, has, getNodeCount. subst g0.
    rewrite bind_gets. cbn [list_]. rewrite map_size_empty.
    rewrite (bool_decide_eq_false_2 (MAX_NODES ≤ _)) by (unfold MAX_NODES; lia).
    cbn [when]. unfold mret at 1, M_ret at 1.
    erewrite bind_ok by reflexivity.
    rewrite bind_gets. cbn [list_]. rewrite lookup_empty.
    rewrite (bool_decide_eq_false_2 (is_Some None)) by (by intros [? [=]]).
    simpl. rewrite bool_decide_eq_false_2 by (by destruct root).
    erewrite bind_ok by reflexivity. rewrite bind_gets. cbn [rootName].
    erewrite bind_ok by reflexivity.
    rewrite (bool_decide_eq_false_2 (root ≠ root)) by naive_solver. done. }
  simpl in *. rewrite Hc.
  unfold addNode_commit, addNode_parents. simpl.
  rewrite (bool_decide_eq_false_2 (root ≠ root)) by naive_solver. simpl.
  done.
Qed.

Lemma reachable_ind' (P : t → Prop) :
  (∀ ts pid hex id sd, P (new (generateSecureRootName ts pid hex) id sd).2) →
  (∀ g c, reachable g → P g → P (call c g).2) →
  ∀ g, reachable g → P g.
Proof.
  intros Hnew Hstep g (ts&pid&hex&i&sd&calls&->).
  induction calls as [|c calls IH] using rev_ind; simpl; [apply Hnew|].
  unfold run_calls in *. rewrite foldl_snoc. apply Hstep; [|done].
  by exists ts, pid, hex, i, sd, calls.
Qed.

Lemma size_call c g :
  Z.of_nat (size (list_ g)) ≤ MAX_NODES → Z.of_nat (size (list_ (call c g).2)) ≤ MAX_NODES.
Proof.
  intros Hle. destruct c as [n d ps cs col st|n nn d ps cs col st|n iu]; simpl.
  - by apply size_addNode.
  - rewrite updateNode_unfold. cbv zeta.
    destruct (decide (n = _)); [done|]. destruct (decide (_ ∧ _)); [done|].
    destruct (list_ g !! n) as [nd|]; [|done].
    destruct (runCommonValidation _ _ _ _ g).1 as [[]| |]; try done.
    apply size_addNode.
    pose proof (size_removeNode_commit n true nd g). lia.
  - rewrite removeNode_unfold.
    destruct (decide (n = _)); [done|]. destruct (list_ g !! n) as [nd|]; [|done].
    pose proof (size_removeNode_commit n (default false iu) nd g). cbn [snd]. lia.
Qed.



(** ** Worked examples *)

(** A new graph, its root name made from fixed strings. *)
Definition example_root : string := generateSecureRootName "19a" "0b3c" "7f".
Definition example_new : t := (new example_root "project-1" 0%nat).2.

Lemma reachable_run_calls calls :
  reachable (run_calls calls example_new).
Proof. by exists "19a"%string, "0b3c"%string, "7f"%string, "project-1"%string, 0%nat, calls. Qed.

(** [addNode("A", 3, [])] on a new graph. *)
Definition example_unbound : t :=
  run_calls [CallAddNode (Some "A") (Some 3) (Some (Some [])) None None None] example_new.

(** C1 *)
Theorem addNode_empty_parents_unbound :
  reachable example_unbound ∧
  "A"%string ≠ rootName example_unbound ∧
  (call (CallAddNode (Some "A") (Some 3) (Some (Some [])) None None None) example_new).1 = Ok tt ∧
  parents <$> list_ example_unbound !! "A"%string = Some (Some []) ∧
  children <$> list_ example_unbound !! example_root = Some None.
Proof.
  split; [apply reachable_run_calls|]. by vm_compute.
Qed.

(** [addNode("A", 3, null, null, Color5)], then [updateNode("A")]. *)
Definition example_colored : t :=
  run_calls [CallAddNode (Some "A") (Some 3) None None (Some Color5) None] example_new.

Theorem updateNode_resets_color :
  reachable example_colored ∧
  color <$> list_ example_colored !! "A"%string = Some Color5 ∧
  (updateNode "A" None None None None None None example_colored).1 = Ok tt ∧
  color <$> list_ (updateNode "A" None None None None None None example_colored).2 !! "A"%string
    = Some Color1.
Proof.
  split; [apply reachable_run_calls|]. by vm_compute.
Qed.

Lemma addNode_atomic_witness :
  addNode (Some "A") (Some 0) None None None None None example_new
    = (Throw ZeroDuration, example_new) ∧
  (addNode (Some "A") (Some 0) None None None None None example_new).2 = example_new.
Proof.
  assert (addNode (Some "A") (Some 0) None None None None None example_new
    = (Throw ZeroDuration, example_new)) as H by (by vm_compute).
  split; [exact H|].
  apply (addNode_atomic (Some "A") (Some 0) None None None None None example_new ZeroDuration).
  - reflexivity.
  - rewrite H. reflexivity.
Defined.

(** C7 *)
Theorem node_count_bounded :
  (∀ g, reachable g → Z.of_nat (getNodeCount g) ≤ MAX_NODES) ∧
  (∀ g name duration parents children color start validate,
     MAX_NODES ≤ Z.of_nat (getNodeCount g) →
     addNode name duration parents children color start validate g
     = (Throw NodeLimitExceeded, g)).
Proof.
  split.
  - intros g Hr. induction Hr using reachable_ind'.
    + rewrite new_unfold by apply generateSecureRootName_nonempty.
      unfold getNodeCount. cbn [snd list_]. by rewrite map_size_singleton.
    + by apply size_call.
  - intros * Hfull. rewrite addNode_unfold. simpl.
    unfold addNode_check. rewrite bind_gets.
    rewrite !(bind_run_readonly (when _ _)) by auto with readonly.
    rewrite bool_decide_eq_true_2 by lia. done.
Qed.

(** The decimal numeral of [n], of at most [fuel] digits. *)
Fixpoint numeral (fuel n : nat) : string :=
  match fuel with
  | O => ""
  | S fuel' =>
      (if decide (n < 10)%nat then "" else numeral fuel' (n `div` 10)%nat)
      +:+ String (Ascii.ascii_of_nat (48 + n `mod` 10)) ""
  end.

(** A graph at capacity: the root and the tasks T1 ... T9999, each the
    only child of the one before. *)
Definition example_full : t :=
  let task i := "T" +:+ numeral 4 i in
  let entry i :=
    (task i, mkEntryNode (task i) 1
               (Some [match i with 1%nat => example_root | _ => task (i - 1)%nat end])
               (if decide (i = 9999%nat) then None else Some [task (S i)]) Color1 None) in
  mkAdjacencyList "project-1"
    (<[example_root := mkEntryNode example_root 0 None (Some [task 1%nat]) Color1 None]>
       (list_to_map (entry <$> seq 1 9999)))
    Color1 0%nat example_root.

Lemma node_count_bounded_witness :
  Z.of_nat (getNodeCount example_new) ≤ MAX_NODES ∧
  MAX_NODES ≤ Z.of_nat (getNodeCount example_full) ∧
  addNode (Some "T10000") (Some 1) None None None None None example_full
    = (Throw NodeLimitExceeded, example_full).
Proof.
  assert (MAX_NODES ≤ Z.of_nat (getNodeCount example_full)) as H
    by (vm_compute; discriminate).
  split; [|split; [exact H|]].
  - apply (proj1 node_count_bounded example_new). apply (reachable_run_calls []).
  - apply (proj2 node_count_bounded example_full). exact H.
Defined.

End GraphFacts.

(** * Properties of the schedule builder *)

Module RenderFacts.
Import AdjacencyList GraphFacts RenderMap.

(** ** The heap of dates *)

(** The dates that exist in [h0] have the same time value in [h]. *)
Definition heap_kept (h0 h : DateHeap) : Prop := take (length h0) h = h0.

Lemma heap_kept_refl h : heap_kept h h.
Proof. apply firstn_all. Qed.

Lemma heap_kept_length h0 h : heap_kept h0 h → (length h0 ≤ length h)%nat.
Proof.
  unfold heap_kept. intros H. rewrite <-H at 1. rewrite length_take. lia.
Qed.

Lemma heap_kept_lookup h0 h d : heap_kept h0 h → (d < length h0)%nat → h !! d = h0 !! d.
Proof.
  unfold heap_kept. intros H Hd.
  rewrite <-(lookup_take_lt h (length h0) d) by done. by rewrite H.
Qed.

Lemma heap_kept_new_Date h0 h t :
  heap_kept h0 h → heap_kept h0 (new_Date t h).2.
Proof.
  intros H. pose proof (heap_kept_length _ _ H). unfold heap_kept, new_Date in *. simpl.
  by rewrite take_app_le.
Qed.

Lemma heap_kept_setTime h0 h d t :
  heap_kept h0 h → (length h0 ≤ d)%nat → heap_kept h0 (setTime d t h).
Proof.
  unfold heap_kept, setTime. intros H Hd. by rewrite take_insert_ge.
Qed.

Lemma heap_kept_setDate h0 h d date :
  heap_kept h0 h → (length h0 ≤ d)%nat → heap_kept h0 (setDate d date h).
Proof. intros. by apply heap_kept_setTime. Qed.

(** ** The traversal only reads its input *)

Definition input_kept (m0 : gmap string entryNode) (h0 : DateHeap) (st : state) : Prop :=
  adjList st = m0 ∧ heap_kept h0 (heap st).

Lemma heap_kept_trans h0 h1 h2 : heap_kept h0 h1 → heap_kept h1 h2 → heap_kept h0 h2.
Proof.
  intros H1 H2. pose proof (heap_kept_length _ _ H1).
  unfold heap_kept in *. rewrite <-H2 in H1. rewrite take_take in H1.
  by replace (length h0 `min` length h1)%nat with (length h0) in H1 by lia.
Qed.

Lemma length_setTime d t h : length (setTime d t h) = length h.
Proof. apply length_insert. Qed.

Lemma length_setDate d date h : length (setDate d date h) = length h.
Proof. apply length_insert. Qed.

(** The heap once the [start] date of a ready child holds its final
    value. *)
Definition start_heap (root : string) (ps : Date) (cur childNode : entryNode)
    (rm : list (string * ganttElement)) (h : list Z) : list Z :=
  let h1 := h ++ [computed_start root ps cur (default [] (parents childNode)) rm h] in
  match AdjacencyList.start childNode with
  | Some user =>
      if bool_decide (getTime h1 user >= getTime h1 (length h))
      then setTime (length h) (getTime h1 user) h1 else h1
  | None => h1
  end.

Lemma length_start_heap root ps cur childNode rm h :
  length (start_heap root ps cur childNode rm h) = S (length h).
Proof.
  unfold start_heap. destruct (AdjacencyList.start childNode); try case_bool_decide;
    rewrite ?length_setTime, length_app; simpl; lia.
Qed.

Lemma heap_kept_start_heap root ps cur childNode rm h :
  heap_kept h (start_heap root ps cur childNode rm h).
Proof.
  unfold start_heap. destruct (AdjacencyList.start childNode); try case_bool_decide;
    try apply heap_kept_setTime; try lia; apply (heap_kept_new_Date h h), heap_kept_refl.
Qed.

Lemma make_element_heap root ps cur childNode rm h :
  (make_element root ps cur childNode rm h).2 =
    let h2 := start_heap root ps cur childNode rm h in
    setDate (S (length h)) (getDate (h2 ++ [getTime h2 (length h)]) (length h)
                            + duration childNode)
      (h2 ++ [getTime h2 (length h)]).
Proof.
  unfold make_element, new_Date. cbn [fst snd]. fold (start_heap root ps cur childNode rm h).
  by rewrite length_start_heap.
Qed.

Lemma heap_kept_make_element root ps cur childNode rm h :
  heap_kept h (make_element root ps cur childNode rm h).2.
Proof.
  rewrite make_element_heap. cbv zeta.
  apply heap_kept_setDate; [|lia].
  apply heap_kept_new_Date, heap_kept_start_heap.
Qed.

Lemma input_kept_visit_child m0 h0 root ps cur acc c :
  input_kept m0 h0 acc.1 →
  input_kept m0 h0 (visit_child root ps cur acc c).1.
Proof.
  intros [Hm Hh]. unfold visit_child.
  destruct (adjList acc.1 !! c) as [childNode|]; [|done].
  case_match; [|done]. split; [done|]. simpl.
  eapply heap_kept_trans; [done|]. apply heap_kept_make_element.
Qed.

Lemma input_kept_visit_children m0 h0 root ps cur cs acc :
  input_kept m0 h0 acc.1 →
  input_kept m0 h0 (foldl (visit_child root ps cur) acc cs).1.
Proof.
  revert acc. induction cs as [|c cs IH]; intros acc H; simpl; [done|].
  apply IH. by apply input_kept_visit_child.
Qed.

Lemma input_kept_record_elements m0 h0 elems st :
  input_kept m0 h0 st → input_kept m0 h0 (foldl record_element st elems).
Proof.
  revert st. induction elems as [|e elems IH]; intros st H; simpl; [done|].
  apply IH. by destruct H.
Qed.

Lemma input_kept_step m0 h0 root ps cur rest st :
  input_kept m0 h0 st → input_kept m0 h0 (step root ps cur rest st).
Proof.
  intros H. unfold step, ready_children. simpl.
  destruct (if bool_decide (cur = "") then None else adjList st !! cur) as [nd|].
  - apply input_kept_record_elements. simpl.
    apply input_kept_visit_children. by destruct H.
  - simpl. by destruct H.
Qed.

Lemma input_kept_loop m0 h0 fuel root ps st st' :
  input_kept m0 h0 st → loop fuel root ps st = Some st' → input_kept m0 h0 st'.
Proof.
  revert st. induction fuel as [|fuel IH]; intros st H Hl; simpl in Hl; [done|].
  destruct (dfsStack st) as [|cur rest]; [by inversion Hl; subst|].
  eapply IH; [|done]. by apply input_kept_step.
Qed.

(** C10: [createRenderMap] leaves the adjacency list as it was (its keys and
    every field of every entry) and changes the time value of no date
    that existed before the call. *)
Theorem createRenderMap_reads_only adjList rootName projectStart initialNodeName h result adjList' h' :
  createRenderMap adjList rootName projectStart initialNodeName h = Some (result, adjList', h') →
  adjList' = adjList ∧ dom adjList' = dom adjList ∧
  (length h ≤ length h')%nat ∧ ∀ d, (d < length h)%nat → h' !! d = h !! d.
Proof.
  unfold createRenderMap. intros H.
  destruct (loop _ _ _ _) as [st|] eqn:E; [|done]. simpl in H. inversion H; subst.
  apply (input_kept_loop adjList h) in E as [Hm Hh]; [|split; [done|apply heap_kept_refl]].
  rewrite Hm. split_and!; [done|done|by apply heap_kept_length|].
  intros d Hd. by apply heap_kept_lookup.
Qed.

(** ** Sorting *)

Section sort.
Context {A : Type} (comparefn : A → A → Z).

(** [a] may stand before [b]. *)
Definition before (a b : A) : Prop := ¬ comparefn a b > 0.

Hypothesis asym : ∀ a b, comparefn a b > 0 → ¬ comparefn b a > 0.
Hypothesis before_trans : ∀ a b c, before a b → before b c → before a c.

Lemma sort_insert_perm x l : sort_insert comparefn x l ≡ₚ x :: l.
Proof.
  induction l as [|y l IH]; simpl; [done|].
  case_bool_decide; [|done]. rewrite IH. apply Permutation_swap.
Qed.

Lemma Array_sort_perm l : Array_sort comparefn l ≡ₚ l.
Proof.
  unfold Array_sort. rewrite reverse_Permutation.
  assert (∀ acc, foldl (λ acc x, sort_insert comparefn x acc) acc l ≡ₚ l ++ acc) as H.
  { induction l as [|x l IH]; intros acc; simpl; [done|].
    rewrite IH, sort_insert_perm. by rewrite Permutation_middle. }
  by rewrite H, app_nil_r.
Qed.

(** The sorted prefix, last element first: every element may stand
    before the ones nearer to the head. *)
Definition sorted_rev (l : list A) : Prop := StronglySorted (flip before) l.

Lemma sort_insert_sorted x l : sorted_rev l → sorted_rev (sort_insert comparefn x l).
Proof using asym before_trans.
  unfold sorted_rev. induction 1 as [|y l Hs IH Hy]; simpl.
  - repeat constructor.
  - case_bool_decide as Hc.
    + constructor; [done|].
      rewrite sort_insert_perm. constructor; [|done].
      unfold flip, before. by apply asym.
    + constructor; [by constructor|].
      constructor; [done|].
      rewrite Forall_forall in Hy |- *. intros z Hz.
      unfold flip in *. eapply before_trans; [by apply Hy|done].
Qed.

Lemma sorted_rev_reverse l : sorted_rev l → StronglySorted before (reverse l).
Proof.
  unfold sorted_rev. induction 1 as [|y l Hs IH Hy]; [constructor|].
  rewrite reverse_cons. apply StronglySorted_app_2; [|done|repeat constructor].
  intros x1 x2 Hx1 ->%list_elem_of_singleton.
  rewrite Forall_forall in Hy. apply Hy. by apply elem_of_reverse.
Qed.

Lemma Array_sort_sorted l : StronglySorted before (Array_sort comparefn l).
Proof using asym before_trans.
  unfold Array_sort. apply sorted_rev_reverse.
  assert (∀ acc, sorted_rev acc →
    sorted_rev (foldl (λ acc x, sort_insert comparefn x acc) acc l)) as H.
  { induction l as [|x l IH]; intros acc Hacc; simpl; [done|].
    apply IH. by apply sort_insert_sorted. }
  apply H. constructor.
Qed.

End sort.

Lemma StronglySorted_lookup {A} (R : relation A) l i j a b :
  StronglySorted R l → (i < j)%nat → l !! i = Some a → l !! j = Some b → R a b.
Proof.
  intros Hs. revert i j. induction Hs as [|x l Hs IH Hx]; intros i j Hij Hi Hj; [done|].
  destruct j as [|j]; [lia|]. destruct i as [|i]; simpl in *.
  - inversion Hi; subst. rewrite Forall_forall in Hx. apply Hx. by eapply list_elem_of_lookup_2.
  - eapply IH; [|done..]. lia.
Qed.

(** ** The comparator *)

(** What [sortGanttElements] compares: whether [children] is a set
    ([1]) or [null] ([0]), then the day of the month of the end date. *)
Definition sort_key (h : list Z) (a : ganttElement) : Z * Z :=
  (if ge_children a is Some _ then 1 else 0, getDate h (ge_end a)).

Definition key_le (k1 k2 : Z * Z) : Prop := k1.1 < k2.1 ∨ (k1.1 = k2.1 ∧ k1.2 ≤ k2.2).

Lemma sortGanttElements_after h a b :
  sortGanttElements h a b > 0 ↔ ¬ key_le (sort_key h a) (sort_key h b).
Proof.
  unfold sortGanttElements, key_le, sort_key. simpl.
  destruct (ge_children a), (ge_children b); simpl;
    repeat (case_bool_decide; simpl); try lia; try congruence;
    match goal with H : ge_end _ = ge_end _ |- _ => rewrite H; lia end.
Qed.

Lemma sortGanttElements_asym h a b :
  sortGanttElements h a b > 0 → ¬ sortGanttElements h b a > 0.
Proof. rewrite !sortGanttElements_after. unfold key_le. lia. Qed.

Lemma sortGanttElements_trans h a b c :
  before (sortGanttElements h) a b → before (sortGanttElements h) b c →
  before (sortGanttElements h) a c.
Proof. unfold before. rewrite !sortGanttElements_after. unfold key_le. lia. Qed.

(** The order the specification describes: an element without children
    is never followed by one with children, and of two elements of the
    same kind the first ends no later. *)
Definition leaves_last_by_end (h : list Z) (elems : list ganttElement) : Prop :=
  ∀ i j a b, (i < j)%nat → elems !! i = Some a → elems !! j = Some b →
    (ge_children a = None → ge_children b = None) ∧
    ((ge_children a = None ↔ ge_children b = None) →
     getTime h (ge_end a) ≤ getTime h (ge_end b)).

(** The order of the code: an element whose [children] is a set is never
    followed by one whose [children] is [null], and of two elements of
    the same kind the first has no later day of the month. *)
Definition leaves_first_by_day (h : list Z) (elems : list ganttElement) : Prop :=
  ∀ i j a b, (i < j)%nat → elems !! i = Some a → elems !! j = Some b →
    (ge_children b = None → ge_children a = None) ∧
    ((ge_children a = None ↔ ge_children b = None) →
     getDate h (ge_end a) ≤ getDate h (ge_end b)).

(** C5, as the code has it: the elements one pop makes ready are recorded
    with those whose [children] is [null] first, and among elements of
    the same kind by non-decreasing day of the month of the end date. *)
Theorem ready_children_order rootName projectStart currentNodeName st :
  let ready := ready_children rootName projectStart currentNodeName st in
  leaves_first_by_day (heap ready.1) ready.2.
Proof.
  unfold ready_children.
  destruct (if bool_decide _ then _ else _) as [nd|]; simpl; [|by intros i j a b _ [=]].
  set (visited := foldl _ _ _).
  intros i j a b Hij Hi Hj.
  pose proof (Array_sort_sorted (sortGanttElements (heap visited.1))
    (sortGanttElements_asym _) (sortGanttElements_trans _) visited.2) as Hs.
  pose proof (StronglySorted_lookup _ _ _ _ _ _ Hs Hij Hi Hj) as Hab.
  unfold before in Hab. rewrite sortGanttElements_after in Hab.
  apply dec_stable in Hab. unfold key_le, sort_key in Hab. simpl in Hab.
  destruct (ge_children a), (ge_children b); split; try done; try lia; naive_solver.
Qed.

(** ** Worked examples *)

(** The root with the tasks A (which has the child C) and B. *)
Definition example_siblings : t :=
  run_calls
    [CallAddNode (Some "A") (Some 2) None None None None;
     CallAddNode (Some "B") (Some 1) None None None None;
     CallAddNode (Some "C") (Some 1) (Some (Some ["A"])) None None None]
    example_new.

(** 2026-01-01T00:00:00Z, the only date of the heap. *)
Definition example_heap : list Z := [1767225600000].

Definition example_ready : state * list ganttElement :=
  ready_children example_root 0%nat example_root
    (mkState (list_ example_siblings) example_heap [] [] ∅).

(** C5, as the specification has it, fails: the leaf B is recorded before
    A, which has a child. *)
Lemma leaf_sorts_first_counterexample :
  ¬ leaves_last_by_end (heap example_ready.1) example_ready.2.
Proof.
  assert ((λ e, (ge_name e, ge_children e)) <$> example_ready.2
          = [("B"%string, None); ("A"%string, Some ["C"%string])]) as H by (by vm_compute).
  destruct example_ready.2 as [|b [|a l]]; try done.
  injection H as Hb1 Hb2 Ha1 Ha2 _.
  intros Hord. destruct (Hord 0%nat 1%nat b a) as [Hl _]; [lia|done|done|].
  specialize (Hl Hb2). congruence.
Qed.

(** S under the root, A under S, and C under A and S. *)
Definition example_join : t :=
  run_calls
    [CallAddNode (Some "S") (Some 2) None None None None;
     CallAddNode (Some "A") (Some 3) (Some (Some ["S"])) None None None;
     CallAddNode (Some "C") (Some 1) (Some (Some ["A"; "S"])) None None None]
    example_new.

(** C3 fails on the code: started at S, the traversal gives C, whose
    parents are A and S, the project start as start date, three days
    before the end of its scheduled parent A. *)
Theorem join_starts_before_parent_ends :
  reachable example_join ∧
  ∃ result m h a c,
    createRenderMap (list_ example_join) example_root 0%nat (Some "S") example_heap
      = Some (result, m, h) ∧
    Map_get "S" result = None ∧
    Map_get "A" result = Some a ∧
    Map_get "C" result = Some c ∧
    ge_parents c = Some ["A"; "S"]%string ∧
    getTime h 0%nat = 1767225600000 ∧
    getTime h (ge_end a) = 1767484800000 ∧
    getTime h (ge_start c) = 1767225600000.
Proof.
  split; [apply reachable_run_calls|].
  eexists _, _, _, _, _. split; [by vm_compute|]. by vm_compute.
Qed.

(** A under the root and B under A, the project starting on
    1960-01-01T00:00:00Z. *)
Definition example_chain : t :=
  run_calls
    [CallAddNode (Some "A") (Some 1) None None None None;
     CallAddNode (Some "B") (Some 1) (Some (Some ["A"])) None None None]
    example_new.

Lemma start_before_epoch_is_epoch :
  ∃ result m h a b,
    createRenderMap (list_ example_chain) example_root 0%nat None [-315619200000]
      = Some (result, m, h) ∧
    Map_get "A" result = Some a ∧ Map_get "B" result = Some b ∧
    getTime h (ge_end a) = -315532800000 ∧ getTime h (ge_start b) = 0.
Proof.
  eexists _, _, _, _, _. split; [by vm_compute|]. by vm_compute.
Qed.

End RenderFacts.

(** * Properties of the pattern matcher *)

Module KmpFacts.
Import KmpSearch.
Local Open Scope nat_scope.

(** ** Prefixes of the pattern that end a text *)

(** The first [k] code units of [p] are the last [k] of [s]. *)
Definition border (p s : list N) (k : nat) : Prop :=
  k ≤ length p ∧ take k p `suffix_of` s.

Definition longest (p s : list N) (k : nat) : Prop :=
  border p s k ∧ ∀ k', border p s k' → k' ≤ k.

(** [pi] code units are matched before position [ti] of the text, and
    no match that ends after position [ti] is longer than [S pi]. *)
Definition candidate (p t : list N) (ti pi : nat) : Prop :=
  border p (take ti t) pi ∧ ∀ k, border p (take (S ti) t) k → k ≤ S pi.

(** [p] occurs in [t]. *)
Definition occurs (p t : list N) : Prop := ∃ pre suf, t = pre ++ p ++ suf.

Lemma border_0 p s : border p s 0.
Proof. split; [lia|]. apply suffix_nil. Qed.

Lemma border_length p s k : border p s k → k ≤ length s.
Proof.
  intros [Hk Hs]. apply suffix_length in Hs. rewrite length_take in Hs. lia.
Qed.

Lemma border_snoc p s c k :
  border p (s ++ [c]) (S k) ↔ border p s k ∧ p !! k = Some c.
Proof.
  unfold border. split.
  - intros [Hk Hs]. destruct (lookup_lt_is_Some_2 p k) as [x Hx]; [lia|].
    rewrite (take_S_r _ _ _ Hx) in Hs. split_and!; [lia| |].
    + by eapply suffix_snoc_inv_2.
    + apply suffix_snoc_inv_1 in Hs. by subst.
  - intros [[Hk Hs] Hx]. split; [by apply lookup_lt_Some in Hx|].
    rewrite (take_S_r _ _ _ Hx). by apply suffix_snoc.
Qed.

Lemma border_snoc_inv p s c k :
  border p (s ++ [c]) k → k = 0 ∨ ∃ k', k = S k' ∧ border p s k' ∧ p !! k' = Some c.
Proof.
  destruct k as [|k']; [by left|]. rewrite border_snoc. right. eauto.
Qed.

Lemma suffix_take_le (p s : list N) k j :
  take k p `suffix_of` s → take j p `suffix_of` s → k ≤ j → j ≤ length p →
  take k p `suffix_of` take j p.
Proof.
  intros Hk Hj Hle Hlen. destruct (suffix_weak_total _ _ _ Hk Hj) as [|H]; [done|].
  apply suffix_length in H as Hl. rewrite !length_take in Hl.
  replace k with j by lia. done.
Qed.

Lemma suffix_tail (l1 l2 : list N) x :
  l1 `suffix_of` x :: l2 → length l1 ≤ length l2 → l1 `suffix_of` l2.
Proof.
  destruct l1 as [|y l1]; [intros; apply suffix_nil|].
  intros [Heq|H]%suffix_cons_inv Hlen; [|done].
  inversion Heq; subst. simpl in Hlen. lia.
Qed.

Lemma take_tail (p : list N) k : 0 < k → k ≤ length p →
  ∃ x, take k p = x :: take (k - 1) (drop 1 p).
Proof.
  destruct p as [|x p]; simpl; [lia|]. destruct k as [|k]; [lia|]. intros _ _.
  exists x. simpl. by rewrite Nat.sub_0_r, drop_0.
Qed.

Lemma candidate_of_longest p t ti pi : longest p (take ti t) pi → candidate p t ti pi.
Proof.
  intros [Hb Hmax]. split; [done|]. intros k Hk.
  destruct (t !! ti) as [c|] eqn:Hc.
  - rewrite (take_S_r _ _ _ Hc) in Hk.
    apply border_snoc_inv in Hk as [->|(k'&->&Hk'&_)]; [lia|].
    apply Hmax in Hk'. lia.
  - apply lookup_ge_None in Hc. rewrite take_ge in Hk by lia.
    rewrite take_ge in Hmax by lia. apply Hmax in Hk. lia.
Qed.

Lemma candidate_match p t ti pi c :
  candidate p t ti pi → t !! ti = Some c → p !! pi = Some c →
  longest p (take (S ti) t) (S pi).
Proof.
  intros [Hb Hmax] Ht Hp. split; [|done].
  rewrite (take_S_r _ _ _ Ht). by apply border_snoc.
Qed.

Lemma candidate_fallback p t ti pi c L :
  candidate p t ti pi → 0 < pi → t !! ti = Some c → p !! pi ≠ Some c →
  longest p (take (pi - 1) (drop 1 p)) L →
  candidate p t ti L ∧ L < pi.
Proof.
  intros [[Hpi Hb] Hmax] Hpos Ht Hp [[HL HLs] HLmax].
  destruct (take_tail p pi) as [x Hx]; [done..|].
  assert (L < pi) as HLlt.
  { apply suffix_length in HLs. rewrite !length_take in HLs. lia. }
  split; [|done]. split.
  - split; [done|]. etrans; [exact HLs|]. etrans; [|exact Hb].
    rewrite Hx. apply suffix_cons_r. done.
  - intros k Hk. rewrite (take_S_r _ _ _ Ht) in Hk.
    apply border_snoc_inv in Hk as [->|(k'&->&[Hk' Hks]&Hc)]; [lia|].
    assert (k' ≤ pi) as Hle.
    { assert (S k' ≤ S pi); [|lia]. apply Hmax. rewrite (take_S_r _ _ _ Ht).
      by apply border_snoc. }
    assert (k' ≠ pi) by congruence.
    assert (k' ≤ L); [|lia]. apply HLmax. split; [done|].
    pose proof (suffix_take_le p _ k' pi Hks Hb ltac:(lia) Hpi) as Hs.
    rewrite Hx in Hs. apply suffix_tail in Hs; [done|].
    rewrite !length_take, length_drop. lia.
Qed.

Lemma candidate_mismatch_0 p t ti c :
  candidate p t ti 0 → t !! ti = Some c → p !! 0 ≠ Some c →
  longest p (take (S ti) t) 0.
Proof.
  intros [Hb Hmax] Ht Hp. split; [apply border_0|]. intros k Hk.
  specialize (Hmax k Hk). rewrite (take_S_r _ _ _ Ht) in Hk.
  apply border_snoc_inv in Hk as [->|(k'&->&_&Hc)]; [lia|].
  replace k' with 0 in Hc by lia. done.
Qed.

(** ** The table of [buildLspArray] *)

(** Entry [j] is the length of the longest proper prefix of
    [p[0 .. j]] that ends it. *)
Definition lsp_spec (p : list N) (lsp : list nat) : Prop :=
  ∀ j k, lsp !! j = Some k → longest p (take j (drop 1 p)) k.

Lemma lsp_spec_bound p lsp j k : lsp_spec p lsp → lsp !! j = Some k → k ≤ j.
Proof.
  intros Hs Hj. apply Hs in Hj as [Hb _]. apply border_length in Hb.
  rewrite length_take in Hb. lia.
Qed.

Lemma lsp_fallback_spec p lsp i c fuel len :
  lsp_spec p lsp → length lsp = i → p !! i = Some c →
  candidate p (drop 1 p) (i - 1) len → 0 < i → len < fuel →
  ∃ len', lsp_fallback fuel p lsp i len = Some len' ∧
          candidate p (drop 1 p) (i - 1) len' ∧
          (p !! len' = Some c ∨ (len' = 0 ∧ p !! 0 ≠ Some c)).
Proof.
  intros Hlsp Hlen Hc. revert len. induction fuel as [|fuel IH]; intros len Hcand Hi Hfuel; [lia|].
  simpl. rewrite Hc.
  assert (drop 1 p !! (i - 1) = Some c) as Ht.
  { rewrite lookup_drop. by replace (1 + (i - 1)) with i by lia. }
  destruct (decide (0 < len)) as [Hpos|Hz].
  - destruct (decide (Some c = p !! len)) as [Heq|Hne].
    + rewrite (bool_decide_eq_false_2 (Some c ≠ _)) by naive_solver.
      rewrite andb_false_r. eauto.
    + rewrite !bool_decide_eq_true_2 by done. simpl.
      assert (len - 1 < length lsp) as Hlt.
      { destruct Hcand as [Hb _]. apply border_length in Hb.
        rewrite length_take, length_drop in Hb. lia. }
      destruct (lookup_lt_is_Some_2 lsp (len - 1) Hlt) as [L HL]. rewrite HL. simpl.
      destruct (candidate_fallback p (drop 1 p) (i - 1) len c L) as [Hcand' HLlt];
        [done|done|done|congruence|by apply Hlsp|].
      apply IH; [done|done|lia].
  - rewrite (bool_decide_eq_false_2 (0 < len)) by done. simpl.
    assert (len = 0) as -> by lia. eexists. split_and!; [done|done|].
    destruct (decide (p !! 0 = Some c)); [by left|by right].
Qed.

Lemma lsp_loop_spec p todo lsp i len :
  lsp_spec p lsp → length lsp = i → 0 < i → i + todo = length p →
  longest p (take (i - 1) (drop 1 p)) len →
  ∃ lsp', lsp_loop todo p lsp i len = Some lsp' ∧ lsp_spec p lsp' ∧ length lsp' = length p.
Proof.
  revert lsp i len. induction todo as [|todo IH]; intros lsp i len Hlsp Hlen Hi Htodo Hlong;
    cbn [lsp_loop]; [exists lsp; split_and!; [done|done|lia]|].
  destruct (lookup_lt_is_Some_2 p i) as [c Hc]; [lia|].
  destruct (lsp_fallback_spec p lsp i c (S len) len) as (len'&->&Hcand&Hexit);
    [done|done|done|by apply candidate_of_longest|done|lia|].
  cbn [mbind option_bind]. rewrite Hc.
  assert (drop 1 p !! (i - 1) = Some c) as Ht.
  { rewrite lookup_drop. by replace (1 + (i - 1)) with i by lia. }
  set (len2 := if bool_decide (Some c = p !! len') then S len' else len').
  assert (longest p (take i (drop 1 p)) len2) as Hlong2.
  { replace i with (S (i - 1)) at 1 by lia. subst len2.
    destruct Hexit as [Heq|[-> Hne]].
    - rewrite bool_decide_eq_true_2 by done. by eapply candidate_match.
    - rewrite bool_decide_eq_false_2 by done. by eapply candidate_mismatch_0. }
  apply IH.
  - intros j k Hj. apply lookup_app_Some in Hj as [Hj|[Hge Hj]]; [by apply Hlsp|].
    rewrite Hlen in *. apply list_lookup_singleton_Some in Hj as [Hj <-].
    by replace j with i by lia.
  - rewrite length_app. simpl. lia.
  - lia.
  - lia.
  - by replace (S i - 1) with i by lia.
Qed.

Lemma buildLspArray_spec p :
  ∃ lsp, buildLspArray p = Some lsp ∧ lsp_spec p lsp ∧ (0 < length p → length lsp = length p).
Proof.
  unfold buildLspArray. destruct (decide (length p = 0)) as [Hz|Hnz].
  - rewrite Hz. simpl. eexists. split_and!; [done| |lia].
    intros j k Hj. apply list_lookup_singleton_Some in Hj as [-> <-].
    split; [apply border_0|]. intros k' Hk'. apply border_length in Hk'. simpl in Hk'. lia.
  - destruct (lsp_loop_spec p (length p - 1) [0] 1 0) as (lsp&?&?&?); [|done|lia|lia| |by eauto].
    + intros j k Hj. apply list_lookup_singleton_Some in Hj as [-> <-].
      split; [apply border_0|]. intros k' Hk'. apply border_length in Hk'. simpl in Hk'. lia.
    + split; [apply border_0|]. intros k' Hk'. apply border_length in Hk'. simpl in Hk'. lia.
Qed.

(** ** The scan of [getMaxLsp] *)

Lemma search_loop_total p t lsp fuel ti pi maxLsp :
  (∀ j k, lsp !! j = Some k → k ≤ j) →
  2 * (length t - ti) + pi < fuel →
  is_Some (search_loop fuel p t lsp ti pi maxLsp).
Proof.
  intros Hlsp. revert ti pi maxLsp.
  induction fuel as [|fuel IH]; intros ti pi maxLsp Hfuel; [lia|].
  simpl. case_bool_decide as Hti; [|done].
  case_bool_decide.
  { case_bool_decide; [done|]. apply IH. lia. }
  case_bool_decide as Hpi.
  - apply IH. destruct (lsp !! (pi - 1)) as [L|] eqn:HL; simpl; [|lia].
    apply Hlsp in HL. lia.
  - apply IH. lia.
Qed.

Lemma search_loop_spec p t lsp fuel ti pi maxLsp :
  lsp_spec p lsp → length lsp = length p →
  candidate p t ti pi → pi < length p →
  (∀ j, j ≤ ti → ¬ border p (take j t) (length p)) →
  maxLsp < length p →
  2 * (length t - ti) + pi < fuel →
  ∃ r, search_loop fuel p t lsp ti pi maxLsp = Some r ∧
       (r = length p ↔ ∃ j, border p (take j t) (length p)).
Proof.
  intros Hlsp Hlen. revert ti pi maxLsp.
  induction fuel as [|fuel IH]; intros ti pi maxLsp Hcand Hpi Hnone Hmax Hfuel; [lia|].
  simpl. case_bool_decide as Hti.
  2: { eexists. split; [done|]. split; [lia|]. intros [j Hj]. exfalso.
       destruct (decide (j ≤ ti)); [by eapply Hnone|].
       apply (Hnone ti); [done|]. by rewrite take_ge in Hj |- * by lia. }
  destruct (lookup_lt_is_Some_2 t ti Hti) as [c Hc]. rewrite Hc.
  case_bool_decide as Hm.
  - pose proof (candidate_match p t ti pi c Hcand Hc (eq_sym Hm)) as Hlong.
    case_bool_decide as Hfull.
    + eexists. split; [done|]. split; [|done]. intros _. exists (S ti).
      rewrite <-Hfull. apply Hlong.
    + assert (S pi < length p) as Hlt.
      { destruct Hlong as [[? _] _]. lia. }
      apply IH; [by apply candidate_of_longest|done| |lia|lia].
      intros j Hj Hb. destruct (decide (j = S ti)) as [->|]; [|apply (Hnone j); [lia|done]].
      destruct Hlong as [_ Hl]. apply Hl in Hb. lia.
  - case_bool_decide as Hz.
    + assert (pi - 1 < length lsp) as Hlt by lia.
      destruct (lookup_lt_is_Some_2 lsp (pi - 1) Hlt) as [L HL]. rewrite HL. simpl.
      destruct (candidate_fallback p t ti pi c L) as [Hcand' HLlt];
        [done|lia|done|congruence|by apply Hlsp|].
      apply IH; [done|lia|done|done|lia].
    + assert (pi = 0) as -> by (destruct pi; [done|by destruct Hz]).
      pose proof (candidate_mismatch_0 p t ti c Hcand Hc ltac:(congruence)) as Hlong.
      apply IH; [by apply candidate_of_longest|done| |done|lia].
      intros j Hj Hb. destruct (decide (j = S ti)) as [->|]; [|apply (Hnone j); [lia|done]].
      destruct Hlong as [_ Hl]. apply Hl in Hb. lia.
Qed.

Lemma occurs_border p t : occurs p t ↔ ∃ j, border p (take j t) (length p).
Proof.
  unfold occurs, border. rewrite firstn_all. split.
  - intros (pre&suf&->). exists (length pre + length p). split; [done|].
    rewrite app_assoc, take_app_length'; [|by rewrite length_app].
    by apply suffix_app_r.
  - intros (j&_&k&Hk). exists k, (drop j t).
    by rewrite app_assoc, <-Hk, take_drop.
Qed.

Section getMaxLsp.
Variable toLowerCase : list N → list N.

Theorem getMaxLsp_total pattern text : is_Some (getMaxLsp toLowerCase pattern text).
Proof.
  unfold getMaxLsp. repeat (case_match; [done|]).
  destruct (buildLspArray_spec (toLowerCase pattern)) as (lsp&->&Hlsp&_).
  cbn [mbind option_bind].
  apply search_loop_total; [|lia]. intros j k. by apply (lsp_spec_bound (toLowerCase pattern)).
Qed.

(** When lower-casing keeps the lengths, the score is the length of the
    pattern exactly when the pattern occurs in the text, both in lower
    case. *)
Theorem getMaxLsp_spec pattern text :
  length (toLowerCase pattern) = length pattern →
  length (toLowerCase text) = length text →
  ∃ r, getMaxLsp toLowerCase pattern text = Some r ∧
       (r = length pattern ↔ occurs (toLowerCase pattern) (toLowerCase text)).
Proof.
  intros Hp Ht. unfold getMaxLsp.
  destruct (decide (length pattern = 0)) as [Hz|Hnz].
  { rewrite bool_decide_eq_true_2 by done. simpl. eexists. split; [done|].
    split; [|done]. intros _. exists [], (toLowerCase text).
    rewrite Hz in Hp. by destruct (toLowerCase pattern). }
  rewrite (bool_decide_eq_false_2 (length pattern = 0)) by done.
  assert (∀ n, n < length pattern → occurs (toLowerCase pattern) (toLowerCase text) →
               length text = n → False) as Hshort.
  { intros n Hn (pre&suf&Hocc) Hl. apply (f_equal length) in Hocc.
    rewrite !length_app in Hocc. lia. }
  case_bool_decide as Hte; simpl.
  { eexists. split; [done|]. split; [lia|]. intros Hocc. exfalso.
    eapply (Hshort 0); [lia|done|done]. }
  case_bool_decide as Hlt.
  { eexists. split; [done|]. split; [lia|]. intros Hocc. exfalso.
    by eapply (Hshort (length text)). }
  destruct (buildLspArray_spec (toLowerCase pattern)) as (lsp&->&Hlsp&Hlen).
  cbn [mbind option_bind].
  destruct (search_loop_spec (toLowerCase pattern) (toLowerCase text) lsp
    (S (2 * length (toLowerCase text))) 0 0 0) as (r&Hr&Hiff).
  - done.
  - apply Hlen. lia.
  - apply candidate_of_longest. split; [apply border_0|].
    intros k Hk. apply border_length in Hk. simpl in Hk. lia.
  - lia.
  - intros j Hj Hb. apply border_length in Hb. rewrite length_take in Hb. lia.
  - lia.
  - lia.
  - exists r. split; [done|]. by rewrite <-Hp, occurs_border.
Qed.
End getMaxLsp.

(** ** Lower-casing and lengths *)

Lemma toLowerCase_latin_length s :
  Forall (λ c, c ≠ 304%N) s → length (toLowerCase_latin s) = length s.
Proof.
  unfold toLowerCase_latin. induction 1 as [|c s Hc _ IH]; [done|].
  rewrite bind_cons, length_app, IH. unfold lower_unit.
  repeat case_bool_decide; done.
Qed.

(** The search of the specification: "dev" in "Development". *)
Lemma getMaxLsp_spec_witness :
  ∃ r, getMaxLsp toLowerCase_latin (of_ascii "dev") (of_ascii "Development") = Some r ∧
       (r = length (of_ascii "dev") ↔
        occurs (toLowerCase_latin (of_ascii "dev"))
          (toLowerCase_latin (of_ascii "Development"))).
Proof.
  apply (getMaxLsp_spec toLowerCase_latin (of_ascii "dev") (of_ascii "Development"));
    reflexivity.
Defined.

Example relevance_dev_Development :
  getMaxLsp toLowerCase_latin (of_ascii "dev") (of_ascii "Development") = Some 3.
Proof. reflexivity. Qed.

(** C9 fails on the code: the task name U+0130 (capital I with dot above)
    contains the pattern U+0130, but its score is 2, the length of the
    lower-cased pattern, and not 1, the length of the pattern. *)
Theorem dotted_capital_I_not_relevant :
  let pattern := [304%N] in
  length pattern = 1 ∧
  occurs pattern pattern ∧
  occurs (toLowerCase_latin pattern) (toLowerCase_latin pattern) ∧
  getMaxLsp toLowerCase_latin pattern pattern = Some 2 ∧
  relevant toLowerCase_latin pattern pattern = false.
Proof.
  split_and!; try reflexivity; by exists [], [].
Qed.

End KmpFacts.
